(** * beetsplug/ftseparator.py: featured-artist separator plugin

    A shallow embedding of the plugin: the tokenizer [split_on_feat], the
    field normaliser [ft_separate], the manual command and the import hook,
    together with the properties stated for them.

    Strings are Python [str] values whose characters are code points below
    256 (Rocq's [ascii]).  Effects on the host (log lines, field writes,
    [store()], [try_write()]) are recorded as events in a trace. *)

From Stdlib Require Import Strings.String Strings.Ascii Lists.List Bool.Bool
  Arith.PeanoNat PArith.BinPos PArith.Pnat Lia.
Import ListNotations.

Local Open Scope string_scope.
Local Open Scope list_scope.

(** ** Python string primitives *)

Module Py.

(** [str.isspace] on one character, for code points below 256:
    TAB..CR, FS..US and SPACE, NEL, NBSP.  The regular-expression class
    [\s] of a [str] pattern uses the same test. *)
Definition is_space (c : ascii) : bool :=
  let n := nat_of_ascii c in
  (((9 <=? n) && (n <=? 13)) || ((28 <=? n) && (n <=? 32))
   || (n =? 133) || (n =? 160))%nat.

(** [s.lstrip()] *)
Fixpoint lstrip (s : string) : string :=
  match s with
  | EmptyString => EmptyString
  | String c r => if is_space c then lstrip r else s
  end.

(** [s.rstrip()] *)
Fixpoint rstrip (s : string) : string :=
  match s with
  | EmptyString => EmptyString
  | String c r =>
      match rstrip r with
      | EmptyString => if is_space c then EmptyString else String c EmptyString
      | r' => String c r'
      end
  end.

(** [s.strip()] *)
Definition strip (s : string) : string := rstrip (lstrip s).

(** [sep.join(parts)] *)
Fixpoint join (sep : string) (parts : list string) : string :=
  match parts with
  | [] => EmptyString
  | [x] => x
  | x :: xs => (x ++ sep ++ join sep xs)%string
  end.

(** Truth value of a [str]: non-empty. *)
Definition truthy (s : string) : bool :=
  match s with EmptyString => false | String _ _ => true end.

(** One-character string, used to extend the text already scanned. *)
Definition chr (c : ascii) : string := String c EmptyString.

End Py.

Import Py.

(** ** The tokenizer *)

Section Tokenizer.

(** The conjunction pattern is supplied by the host
    ([plugins.feat_tokens()], compiled with [re.IGNORECASE]); the plugin
    never looks inside it.  It is abstracted by what the regular
    expression engine answers at one position of the subject: given the
    text on the left of the position (visible to look-behind) and the
    text from the position on, the length of the match starting there,
    if there is one.  The pattern enumerates conjunction words without
    capture groups, so a match is never empty (the length is a
    [positive]) and [re.split] returns text segments only. *)
Variable feat_match : string -> string -> option positive.

(** [regex.split(subject)], scanning left to right.  [pre] is the text
    already scanned, [seg] the segment collected since the end of the
    previous match, [rest] the text still ahead and [skip] the number of
    characters of the current match not yet passed.  Outside a match the
    engine is asked at the current position: on a match the segment is
    emitted and the match is passed over, otherwise the character joins
    the segment.  The segment after the last match is always emitted,
    also when it is empty. *)
Fixpoint split_scan (pre seg rest : string) (skip : nat) : list string :=
  match rest with
  | EmptyString => [seg]
  | String c r =>
      match skip with
      | S k => split_scan (pre ++ chr c) seg r k
      | O =>
          match feat_match pre rest with
          | Some n => seg :: split_scan (pre ++ chr c) EmptyString r (pred (Pos.to_nat n))
          | None => split_scan (pre ++ chr c) (seg ++ chr c) r 0
          end
      end
  end.

Definition re_split (subject : string) : list string :=
  split_scan EmptyString EmptyString subject 0.

(** [split_on_feat(artist)] *)
Definition split_on_feat (artist : string) : list string :=
  let parts := map strip (re_split artist) in
  parts.

(** The pattern matches at no position inside [mid], when [mid] stands
    between [pre] and [post]. *)
Definition Quiet (pre mid post : string) : Prop :=
  forall m1 c m2, mid = (m1 ++ String c m2)%string ->
    feat_match (pre ++ m1) (String c m2 ++ post) = None.

(** The pattern has no match in [s]. *)
Definition NoMatch (s : string) : Prop := Quiet EmptyString s EmptyString.

(** Executable versions of [Quiet] and [NoMatch]. *)
Fixpoint quietb (pre mid post : string) : bool :=
  match mid with
  | EmptyString => true
  | String c r =>
      match feat_match pre (mid ++ post) with
      | Some _ => false
      | None => quietb (pre ++ chr c) r post
      end
  end.

Definition no_matchb (s : string) : bool := quietb EmptyString s EmptyString.

End Tokenizer.

(** ** The host's conjunction pattern *)

Module Beets.

(** Modelled from the spec: the host function [plugins.feat_tokens()],
    which the plugin calls and which is not part of the plugin's file.
    It yields a case-insensitive alternation of conjunction words
    ("feat.", "featuring", "ft.", "with", ...), here with the host's word
    list for artist fields and its requirement that a word stands
    between two whitespace characters:
    [(?<=\s)(?:ft|featuring|feat|feat\.|ft\.|with|vs|and|con|&)(?=\s)]. *)
Definition feat_words : list string :=
  ["ft"; "featuring"; "feat"; "feat."; "ft."; "with"; "vs"; "and"; "con"; "&"].

(** ASCII case folding, as [re.IGNORECASE] does for the letters of the
    words above. *)
Definition lower (c : ascii) : ascii :=
  let n := nat_of_ascii c in
  if ((65 <=? n) && (n <=? 90))%nat then ascii_of_nat (n + 32) else c.

(** [match_word w rest] is the text after [w] when [rest] starts with
    [w], ignoring case. *)
Fixpoint match_word (w rest : string) : option string :=
  match w with
  | EmptyString => Some rest
  | String a w' =>
      match rest with
      | EmptyString => None
      | String b r => if Ascii.eqb a (lower b) then match_word w' r else None
      end
  end.

(** [(?=\s)] *)
Definition lookahead_space (rest : string) : bool :=
  match rest with
  | EmptyString => false
  | String c _ => is_space c
  end.

(** [(?<=\s)] *)
Fixpoint lookbehind_space (pre : string) : bool :=
  match pre with
  | EmptyString => false
  | String c EmptyString => is_space c
  | String _ r => lookbehind_space r
  end.

(** The alternation: the first word, in the order written, that matches
    and is followed by whitespace. *)
Fixpoint first_word (words : list string) (rest : string) : option positive :=
  match words with
  | [] => None
  | w :: ws =>
      match match_word w rest with
      | Some after =>
          if lookahead_space after then Some (Pos.of_nat (String.length w))
          else first_word ws rest
      | None => first_word ws rest
      end
  end.

Definition feat_match (pre rest : string) : option positive :=
  if lookbehind_space pre then first_word feat_words rest else None.





End Beets.

(** ** Items, events and the effect monad *)

Module Item.

(** The three text fields of a library item that the plugin touches. *)
Record t : Type := make
  { artist : string;
    albumartist : string;
    artist_sort : string }.

End Item.

Inductive field : Type := Artist | AlbumArtist | ArtistSort.

Definition get_field (f : field) (item : Item.t) : string :=
  match f with
  | Artist => Item.artist item
  | AlbumArtist => Item.albumartist item
  | ArtistSort => Item.artist_sort item
  end.

Definition update (f : field) (v : string) (item : Item.t) : Item.t :=
  match f with
  | Artist => Item.make v (Item.albumartist item) (Item.artist_sort item)
  | AlbumArtist => Item.make (Item.artist item) v (Item.artist_sort item)
  | ArtistSort => Item.make (Item.artist item) (Item.albumartist item) v
  end.

Definition field_name (f : field) : string :=
  match f with
  | Artist => "artist"
  | AlbumArtist => "albumartist"
  | ArtistSort => "artist_sort"
  end.

(** What the plugin does to its host, in the order it does it. *)
Inductive event : Type :=
| LogInfo (f : field) (old new : string)  (* self._log.info("<f>: {0} -> {1}", old, new) *)
| SetField (f : field) (value : string)   (* item.<f> = value *)
| Store (item : Item.t)                   (* item.store() *)
| TryWrite (item : Item.t).               (* item.try_write() *)

(** Computations that extend the trace of events and may raise. *)
Definition M (A : Type) : Type := list event -> option (A * list event).

Definition ret {A : Type} (a : A) : M A := fun tr => Some (a, tr).

Definition bind {A B : Type} (m : M A) (k : A -> M B) : M B :=
  fun tr => match m tr with
            | Some (a, tr') => k a tr'
            | None => None
            end.

Definition emit (e : event) : M unit := fun tr => Some (tt, tr ++ [e]).

Definition raise {A : Type} : M A := fun _ => None.

(** Lifts a lookup that raises when the key is absent. *)
Definition lift {A : Type} (o : option A) : M A :=
  match o with Some a => ret a | None => raise end.

Notation "x <- m ;; k" := (bind m (fun x => k))
  (at level 61, m at next level, right associativity).
Notation "m ;;; k" := (bind m (fun _ => k))
  (at level 61, right associativity).

(** [for x in xs: body(x)], returning the items as the body left them. *)
Fixpoint for_each (xs : list Item.t) (body : Item.t -> M Item.t) : M (list Item.t) :=
  match xs with
  | [] => ret []
  | x :: rest =>
      x' <- body x ;;
      rest' <- for_each rest body ;;
      ret (x' :: rest')
  end.

(** [item.<f> = value] *)
Definition set_field (item : Item.t) (f : field) (value : string) : M Item.t :=
  emit (SetField f value) ;;; ret (update f value item).

(** [self._log.info("<f>: {0} -> {1}", old, new)] *)
Definition log_info (f : field) (old new : string) : M unit :=
  emit (LogInfo f old new).

(** The text of a log line. *)
Definition message (e : event) : option string :=
  match e with
  | LogInfo f old new => Some (field_name f ++ ": " ++ old ++ " -> " ++ new)%string
  | _ => None
  end.

Definition field_eqb (f g : field) : bool :=
  match f, g with
  | Artist, Artist | AlbumArtist, AlbumArtist | ArtistSort, ArtistSort => true
  | _, _ => false
  end.

(** The log lines and assignments of a trace that concern field [f]. *)
Definition events_of (f : field) (evs : list event) : list event :=
  filter (fun e => match e with
                   | LogInfo g _ _ | SetField g _ => field_eqb f g
                   | _ => false
                   end) evs.

(** The [try_write()] calls of a trace. *)
Definition try_writes (evs : list event) : list event :=
  filter (fun e => match e with TryWrite _ => true | _ => false end) evs.

(** The items stored by a trace, in order. *)
Fixpoint stored (evs : list event) : list Item.t :=
  match evs with
  | [] => []
  | Store item :: rest => item :: stored rest
  | _ :: rest => stored rest
  end.

(** ** Configuration and command line *)

Module Confuse.

(** One layer of the plugin's configuration view: each option is present
    or absent. *)
Record Source : Type := source
  { auto : option bool;
    separator : option string;
    convert_album_artist : option bool;
    convert_sort_artist : option bool }.

(** A view is a stack of layers, highest priority first. *)
Definition View : Type := list Source.

(** [view.add(defaults)]: a layer of lowest priority. *)
Definition add (view : View) (defaults : Source) : View := view ++ [defaults].

(** [view.set(layer)]: a layer of highest priority. *)
Definition set (view : View) (layer : Source) : View := layer :: view.

(** [view[key].get()]: the first layer that has the key; [None] stands
    for the [NotFoundError] raised when no layer has it. *)
Fixpoint get {A : Type} (key : Source -> option A) (view : View) : option A :=
  match view with
  | [] => None
  | s :: rest =>
      match key s with
      | Some v => Some v
      | None => get key rest
      end
  end.

End Confuse.

Module Optparse.

(** What the user typed after [ftseparator]. *)
Record CommandLine : Type := command_line
  { flag_separator : option string;   (* -s VALUE / --separator VALUE *)
    flag_albumartist : bool;          (* -a / --albumartist *)
    flag_sortartist : bool;           (* -r / --sortartist *)
    args : list string }.             (* the query *)

(** The parsed options, by [dest]; [None] is Python's [None]. *)
Record Values : Type := values
  { separator : option string;
    convert_album_artist : option bool;
    convert_sort_artist : option bool }.

(** A [store] option: the value given, else the declared default. *)
Definition store_option {A : Type} (given : option A) (default : option A) : option A :=
  match given with
  | Some v => Some v
  | None => default
  end.

(** A [store_true] option: [True] when the flag is present, else the
    declared default. *)
Definition store_true (present : bool) (default : option bool) : option bool :=
  if present then Some true else default.

End Optparse.

(** ** The plugin *)

Record ImportTask : Type := import_task
  { imported_items : list Item.t }.

Record Library : Type := library
  { items : list string -> list Item.t }.

Section Plugin.

Variable feat_match : string -> string -> option positive.

(** The body shared by the three blocks of [ft_separate]: strip the
    field, split and rejoin it, and when the result differs from the
    stripped value log the change and assign the field. *)
Definition separate_field (f : field) (item : Item.t) (separator : string) : M Item.t :=
  let artist := strip (get_field f item) in
  let artist_list := join separator (split_on_feat feat_match artist) in
  if negb (artist_list =? artist)%string then
    log_info f (get_field f item) artist_list ;;;
    set_field item f artist_list
  else ret item.

(** [FtSeparatorPlugin.ft_separate] *)
Definition ft_separate (item : Item.t) (separator : string)
    (convert_album_artist convert_sort_artist : bool) : M Item.t :=
  item <- separate_field Artist item separator ;;
  item <- (if convert_album_artist && truthy (Item.albumartist item)
           then separate_field AlbumArtist item separator
           else ret item) ;;
  item <- (if convert_sort_artist && truthy (Item.artist_sort item)
           then separate_field ArtistSort item separator
           else ret item) ;;
  ret item.

(** The item and the events that one call of [ft_separate] leaves,
    obtained by running it on an empty trace. *)
Definition run_ft_separate (item : Item.t) (separator : string)
    (convert_album_artist convert_sort_artist : bool) : Item.t * list event :=
  match ft_separate item separator convert_album_artist convert_sort_artist [] with
  | Some r => r
  | None => (item, [])
  end.

(** Whether [ft_separate] enters the block of field [f]. *)
Definition processed (f : field) (item : Item.t)
    (convert_album_artist convert_sort_artist : bool) : bool :=
  match f with
  | Artist => true
  | AlbumArtist => convert_album_artist && truthy (Item.albumartist item)
  | ArtistSort => convert_sort_artist && truthy (Item.artist_sort item)
  end.

(** The stripped value of a field, split and rejoined. *)
Definition rejoined (f : field) (item : Item.t) (separator : string) : string :=
  join separator (split_on_feat feat_match (strip (get_field f item))).

(** Whether the rejoined value differs from the stripped one. *)
Definition changed (f : field) (item : Item.t) (separator : string) : bool :=
  negb (rejoined f item separator =? strip (get_field f item))%string.

(** The log line and the assignment of a block that rewrites [f]. *)
Definition rewrite_events (f : field) (item : Item.t) (separator : string) : list event :=
  [LogInfo f (get_field f item) (rejoined f item separator);
   SetField f (rejoined f item separator)].

(** The defaults given to [self.config.add] in [__init__]. *)
Definition config_defaults : Confuse.Source :=
  Confuse.source (Some true) (Some "; ") (Some false) (Some false).

(** The parser of the subcommand, as the three [add_option] calls of
    [__init__] declare it. *)
Definition parse_args (cl : Optparse.CommandLine) : Optparse.Values :=
  Optparse.values
    (Optparse.store_option (Optparse.flag_separator cl) (Some "; "))
    (Optparse.store_true (Optparse.flag_albumartist cl) None)
    (Optparse.store_true (Optparse.flag_sortartist cl) None).

(** [self.config.set_args(opts)]: the options that are not [None] become
    a layer of highest priority. *)
Definition set_args (config : Confuse.View) (opts : Optparse.Values) : Confuse.View :=
  Confuse.set config
    (Confuse.source None
       (Optparse.separator opts)
       (Optparse.convert_album_artist opts)
       (Optparse.convert_sort_artist opts)).

(** [FtSeparatorPlugin.imported] *)
Definition imported (config : Confuse.View) (task : ImportTask) : M (list Item.t) :=
  separator <- lift (Confuse.get Confuse.separator config) ;;
  album <- lift (Confuse.get Confuse.convert_album_artist config) ;;
  sort <- lift (Confuse.get Confuse.convert_sort_artist config) ;;
  for_each (imported_items task) (fun item =>
    item <- ft_separate item separator album sort ;;
    emit (Store item) ;;;
    ret item).

(** The plugin object after [__init__]: its configuration view and the
    import stages it registered. *)
Record FtSeparatorPlugin : Type := plugin
  { config : Confuse.View;
    import_stages : list (ImportTask -> M (list Item.t)) }.

(** [FtSeparatorPlugin.__init__], given the user's settings for the
    plugin.  The test of [self.config["auto"]] reads the option as a
    truth value; the defaults just added make it present. *)
Definition init (user : Confuse.Source) : FtSeparatorPlugin :=
  let config := Confuse.add [user] config_defaults in
  plugin config
    (match Confuse.get Confuse.auto config with
     | Some true => [imported config]
     | _ => []
     end).

(** The function installed by [commands] as the subcommand's [func].
    [write] is the value of the host's [ui.should_write()]. *)
Definition func (self : FtSeparatorPlugin) (write : bool)
    (lib : Library) (opts : Optparse.Values) (args : list string) : M (list Item.t) :=
  let config := set_args (config self) opts in
  separator <- lift (Confuse.get Confuse.separator config) ;;
  album <- lift (Confuse.get Confuse.convert_album_artist config) ;;
  sort <- lift (Confuse.get Confuse.convert_sort_artist config) ;;
  for_each (items lib args) (fun item =>
    item <- ft_separate item separator album sort ;;
    emit (Store item) ;;;
    (if write then emit (TryWrite item) else ret tt) ;;;
    ret item).

(** Running the subcommand from the command line. *)
Definition run_command (user : Confuse.Source) (write : bool)
    (lib : Library) (cl : Optparse.CommandLine) : M (list Item.t) :=
  func (init user) write lib (parse_args cl) (Optparse.args cl).

End Plugin.

(** * Properties *)

(** ** Strings *)

Lemma sapp_assoc (a b c : string) : ((a ++ b) ++ c = a ++ (b ++ c))%string.
Proof. induction a as [|x a IH]; simpl; [reflexivity | now rewrite IH]. Qed.

Lemma sapp_nil_r (a : string) : (a ++ "" = a)%string.
Proof. induction a as [|x a IH]; simpl; [reflexivity | now rewrite IH]. Qed.

Lemma sapp_chr (a : string) (c : ascii) (b : string) :
  ((a ++ chr c) ++ b = a ++ String c b)%string.
Proof. now rewrite sapp_assoc. Qed.

Lemma rstrip_idem (s : string) : rstrip (rstrip s) = rstrip s.
Proof.
  induction s as [|c r IH]; simpl; [reflexivity|].
  destruct (rstrip r) as [|d r'] eqn:E.
  - destruct (is_space c) eqn:Hc; simpl; [reflexivity | now rewrite Hc].
  - simpl in *. now rewrite IH.
Qed.

Lemma rstrip_head (c : ascii) (r : string) :
  is_space c = false -> exists r', rstrip (String c r) = String c r'.
Proof.
  intros Hc. simpl. destruct (rstrip r) as [|d r'].
  - rewrite Hc. now exists EmptyString.
  - now exists (String d r').
Qed.

Lemma lstrip_head (s : string) :
  lstrip s = EmptyString \/ exists c r, lstrip s = String c r /\ is_space c = false.
Proof.
  induction s as [|c r IH]; simpl; [now left|].
  destruct (is_space c) eqn:Hc; [exact IH|].
  right. now exists c, r.
Qed.

Lemma strip_idem (s : string) : strip (strip s) = strip s.
Proof.
  unfold strip. destruct (lstrip_head s) as [E | (c & r & E & Hc)]; rewrite E.
  - reflexivity.
  - destruct (rstrip_head c r Hc) as [r' E']. rewrite E'.
    simpl lstrip. rewrite Hc. rewrite <- E'. apply rstrip_idem.
Qed.

(** ** The tokenizer *)

Section TokenizerFacts.

Variable feat_match : string -> string -> option positive.

Local Abbreviation split_scan := (split_scan feat_match).
Local Abbreviation re_split := (re_split feat_match).
Local Abbreviation split_on_feat := (split_on_feat feat_match).
Local Abbreviation Quiet := (Quiet feat_match).
Local Abbreviation NoMatch := (NoMatch feat_match).
Local Abbreviation quietb := (quietb feat_match).

Lemma Quiet_nil (pre post : string) : Quiet pre EmptyString post.
Proof. intros m1 c m2 E. destruct m1; discriminate. Qed.

Lemma Quiet_cons (pre : string) (c : ascii) (r post : string) :
  Quiet pre (String c r) post <->
  feat_match pre (String c (r ++ post)) = None /\ Quiet (pre ++ chr c) r post.
Proof.
  split.
  - intros H. split.
    + specialize (H EmptyString c r eq_refl). now rewrite sapp_nil_r in H.
    + intros m1 d m2 E. rewrite sapp_chr.
      apply (H (String c m1) d m2). simpl. now rewrite E.
  - intros [H0 H] m1 d m2 E. destruct m1 as [|x m1]; simpl in E.
    + injection E as -> ->. now rewrite sapp_nil_r.
    + injection E as -> ->. rewrite <- sapp_chr. now apply H.
Qed.

Lemma quietb_spec (mid pre post : string) :
  quietb pre mid post = true <-> Quiet pre mid post.
Proof.
  revert pre. induction mid as [|c r IH]; intros pre; simpl.
  - split; [intros _; apply Quiet_nil | reflexivity].
  - rewrite Quiet_cons. destruct (feat_match pre (String c (r ++ post))) eqn:E.
    + split; [discriminate | intros [H _]; discriminate].
    + rewrite IH. tauto.
Qed.

Lemma no_matchb_spec (s : string) :
  no_matchb feat_match s = true <-> NoMatch s.
Proof. apply quietb_spec. Qed.

(** Over a stretch without a match the scan only extends the segment. *)
Lemma split_scan_quiet (mid pre seg post : string) :
  Quiet pre mid post ->
  split_scan pre seg (mid ++ post) 0 = split_scan (pre ++ mid) (seg ++ mid) post 0.
Proof.
  revert pre seg. induction mid as [|c r IH]; intros pre seg H; simpl.
  - now rewrite !sapp_nil_r.
  - apply Quiet_cons in H. destruct H as [H0 H]. rewrite H0.
    rewrite (IH _ _ H). now rewrite !sapp_chr.
Qed.

(** Inside a match the scan passes the matched text over. *)
Lemma split_scan_skip (m pre seg post : string) :
  split_scan pre seg (m ++ post) (String.length m) = split_scan (pre ++ m) seg post 0.
Proof.
  revert pre. induction m as [|c r IH]; intros pre; simpl.
  - rewrite sapp_nil_r. destruct post; reflexivity.
  - rewrite IH. now rewrite sapp_chr.
Qed.

Lemma split_scan_length (rest pre seg : string) (skip : nat) :
  1 <= List.length (split_scan pre seg rest skip).
Proof.
  revert pre seg skip. induction rest as [|c r IH]; intros pre seg skip; simpl.
  - lia.
  - destruct skip; [destruct (feat_match pre (String c r))|]; simpl; auto with arith.
Qed.

Lemma re_split_no_match (s : string) : NoMatch s -> re_split s = [s].
Proof.
  intros H. unfold re_split.
  generalize (split_scan_quiet s EmptyString EmptyString EmptyString H).
  rewrite sapp_nil_r. intros ->. reflexivity.
Qed.

Lemma re_split_one_match (a m b : string) (n : positive) :
  Quiet EmptyString a (m ++ b) ->
  feat_match a (m ++ b) = Some n ->
  Pos.to_nat n = String.length m ->
  Quiet (a ++ m) b EmptyString ->
  re_split (a ++ m ++ b) = [a; b].
Proof.
  intros Ha Hm Hn Hb. unfold re_split.
  rewrite (split_scan_quiet a _ _ _ Ha). simpl.
  destruct m as [|c m']; [simpl in Hn; lia|].
  simpl in *. rewrite Hm. rewrite Hn. simpl. f_equal.
  rewrite split_scan_skip. rewrite sapp_chr.
  generalize (split_scan_quiet b (a ++ String c m') EmptyString EmptyString Hb).
  rewrite sapp_nil_r. intros ->. reflexivity.
Qed.

Lemma split_on_feat_no_match (s : string) : NoMatch s -> split_on_feat s = [strip s].
Proof. intros H. unfold split_on_feat. now rewrite re_split_no_match. Qed.

(** C2: when the conjunction pattern has no match in [s], joining the
    parts of [split_on_feat s] with any separator gives the stripped
    [s]. *)
Theorem join_split_no_match (s sep : string) :
  NoMatch s -> join sep (split_on_feat s) = strip s.
Proof. intros H. rewrite split_on_feat_no_match by exact H. reflexivity. Qed.

(** C3: [split_on_feat] returns at least one part for every input; for
    the empty string it returns the empty string alone; and without a
    match it returns the stripped input alone. *)
Theorem split_on_feat_parts (s : string) :
  1 <= List.length (split_on_feat s) /\
  split_on_feat EmptyString = [EmptyString] /\
  (NoMatch s -> split_on_feat s = [strip s]).
Proof.
  split; [|split].
  - unfold split_on_feat. rewrite length_map. apply split_scan_length.
  - reflexivity.
  - apply split_on_feat_no_match.
Qed.

(** C4: when the pattern matches exactly once in [s], at the text [m]
    between [a] and [b] (no match starts inside [a], none starts in
    [b]), joining the parts of [split_on_feat s] with [sep] gives the
    stripped [a], then [sep], then the stripped [b]. *)
Theorem join_split_one_match (a m b sep : string) (n : positive) :
  Quiet EmptyString a (m ++ b) ->
  feat_match a (m ++ b) = Some n ->
  Pos.to_nat n = String.length m ->
  Quiet (a ++ m) b EmptyString ->
  join sep (split_on_feat (a ++ m ++ b)) = (strip a ++ sep ++ strip b)%string.
Proof.
  intros Ha Hm Hn Hb. unfold split_on_feat.
  rewrite (re_split_one_match a m b n Ha Hm Hn Hb). reflexivity.
Qed.

End TokenizerFacts.

Lemma join_split_no_match_witness :
  NoMatch Beets.feat_match "  Solo Artist " /\
  join "; " (split_on_feat Beets.feat_match "  Solo Artist ") = "Solo Artist".
Proof.
  assert (H : NoMatch Beets.feat_match "  Solo Artist ")
    by (apply no_matchb_spec; vm_compute; reflexivity).
  split; [exact H|].
  exact (join_split_no_match Beets.feat_match "  Solo Artist " "; " H).
Defined.

Lemma split_on_feat_parts_witness :
  NoMatch Beets.feat_match " Solo Artist" /\
  split_on_feat Beets.feat_match " Solo Artist" = ["Solo Artist"].
Proof.
  assert (H : NoMatch Beets.feat_match " Solo Artist")
    by (apply no_matchb_spec; vm_compute; reflexivity).
  split; [exact H|].
  exact (proj2 (proj2 (split_on_feat_parts Beets.feat_match " Solo Artist")) H).
Defined.

Lemma join_split_one_match_witness :
  join "; " (split_on_feat Beets.feat_match "Artist A feat. Artist B")
  = "Artist A; Artist B".
Proof.
  apply (join_split_one_match Beets.feat_match "Artist A " "feat." " Artist B" "; " 5%positive).
  - apply quietb_spec; vm_compute; reflexivity.
  - vm_compute; reflexivity.
  - vm_compute; reflexivity.
  - apply quietb_spec; vm_compute; reflexivity.
Defined.

(** ** The field normaliser *)

Lemma get_update_same (f : field) (v : string) (item : Item.t) :
  get_field f (update f v item) = v.
Proof. destruct f; reflexivity. Qed.

Lemma get_update_other (f g : field) (v : string) (item : Item.t) :
  field_eqb f g = false -> get_field f (update g v item) = get_field f item.
Proof. destruct f, g; simpl; intros E; try discriminate; reflexivity. Qed.

Arguments changed : simpl never.
Arguments rejoined : simpl never.
Arguments rewrite_events : simpl never.

Section NormalizerFacts.

Variable feat_match : string -> string -> option positive.

Local Abbreviation separate_field := (separate_field feat_match).
Local Abbreviation ft_separate := (ft_separate feat_match).
Local Abbreviation run_ft_separate := (run_ft_separate feat_match).
Local Abbreviation rejoined := (rejoined feat_match).
Local Abbreviation changed := (changed feat_match).
Local Abbreviation rewrite_events := (rewrite_events feat_match).
Local Abbreviation NoMatch := (NoMatch feat_match).

Lemma separate_field_run (f : field) (item : Item.t) (sep : string) (tr : list event) :
  separate_field f item sep tr =
  Some (if changed f item sep then update f (rejoined f item sep) item else item,
        tr ++ (if changed f item sep then rewrite_events f item sep else [])).
Proof.
  unfold separate_field, changed, rejoined, rewrite_events.
  destruct (negb _).
  - unfold bind, log_info, set_field, emit, ret, bind. simpl.
    now rewrite <- app_assoc.
  - unfold ret. now rewrite app_nil_r.
Qed.

Lemma ft_separate_spec (item : Item.t) (sep : string) (a s : bool) (tr : list event) :
  ft_separate item sep a s tr
  = Some (fst (run_ft_separate item sep a s), tr ++ snd (run_ft_separate item sep a s)) /\
  snd (run_ft_separate item sep a s)
  = (if processed Artist item a s && changed Artist item sep
     then rewrite_events Artist item sep else [])
    ++ (if processed AlbumArtist item a s && changed AlbumArtist item sep
        then rewrite_events AlbumArtist item sep else [])
    ++ (if processed ArtistSort item a s && changed ArtistSort item sep
        then rewrite_events ArtistSort item sep else []) /\
  forall f,
    get_field f (fst (run_ft_separate item sep a s))
    = (if processed f item a s && changed f item sep
       then rejoined f item sep else get_field f item) /\
    events_of f (snd (run_ft_separate item sep a s))
    = (if processed f item a s && changed f item sep
       then rewrite_events f item sep else []).
Proof.
  pose (R := fun v => join sep (split_on_feat feat_match (strip v))).
  pose (C := fun v => negb (R v =? strip v)%string).
  assert (HR : forall f it, rejoined f it sep = R (get_field f it)) by reflexivity.
  assert (HC : forall f it, changed f it sep = C (get_field f it)) by reflexivity.
  assert (HE : forall f it, rewrite_events f it sep
               = [LogInfo f (get_field f it) (R (get_field f it));
                  SetField f (R (get_field f it))]) by reflexivity.
  clearbody R C.
  destruct item as [x y z].
  unfold run_ft_separate, ft_separate, bind, processed.
  destruct (C x) eqn:Cx, (C y) eqn:Cy, (C z) eqn:Cz, a, s,
    (truthy y) eqn:Ty, (truthy z) eqn:Tz.
  all: repeat (rewrite ?separate_field_run, ?HC, ?HR, ?HE; simpl;
               rewrite ?Cx, ?Cy, ?Cz, ?Ty, ?Tz; simpl).
  all: unfold ret; rewrite ?app_nil_r, <- ?app_assoc; simpl.
  all: (split; [reflexivity | split; [reflexivity | intros f; destruct f; simpl]]).
  all: rewrite ?HC, ?HR, ?HE; simpl; rewrite ?Cx, ?Cy, ?Cz, ?Ty, ?Tz; simpl.
  all: split; reflexivity.
Qed.

Lemma ft_separate_run (item : Item.t) (sep : string) (a s : bool) (tr : list event) :
  ft_separate item sep a s tr
  = Some (fst (run_ft_separate item sep a s), tr ++ snd (run_ft_separate item sep a s)).
Proof. apply ft_separate_spec. Qed.

Lemma changed_true (f : field) (item : Item.t) (sep : string) :
  changed f item sep = true <-> rejoined f item sep <> strip (get_field f item).
Proof.
  unfold changed. rewrite negb_true_iff. apply String.eqb_neq.
Qed.

Lemma changed_false (f : field) (item : Item.t) (sep : string) :
  changed f item sep = false <-> rejoined f item sep = strip (get_field f item).
Proof.
  unfold changed. rewrite negb_false_iff. apply String.eqb_eq.
Qed.

Lemma rejoined_no_match (f : field) (item : Item.t) (sep : string) :
  NoMatch (strip (get_field f item)) ->
  rejoined f item sep = strip (get_field f item).
Proof.
  intros H. unfold rejoined.
  rewrite (split_on_feat_no_match feat_match _ H). simpl. apply strip_idem.
Qed.

Lemma in_events_of (f : field) (v : string) (evs : list event) :
  In (SetField f v) evs -> In (SetField f v) (events_of f evs).
Proof.
  intros H. unfold events_of. apply filter_In. split; [exact H|].
  destruct f; reflexivity.
Qed.

(** C5: [ft_separate] returns, and for every field whose block it
    enters: when the rejoined value differs from the stripped value of
    the field, the events about the field are exactly one log line (old
    value, new value) followed by one assignment of the rejoined value;
    when they are equal there is neither.  In particular an artist
    whose stripped value has no match of the pattern is neither logged
    nor assigned. *)
Theorem ft_separate_rewrites_iff_changed
    (item : Item.t) (sep : string) (a s : bool) (tr : list event) :
  let item' := fst (run_ft_separate item sep a s) in
  let evs := snd (run_ft_separate item sep a s) in
  ft_separate item sep a s tr = Some (item', tr ++ evs) /\
  (forall f, processed f item a s = true ->
     (rejoined f item sep <> strip (get_field f item) ->
      events_of f evs = [LogInfo f (get_field f item) (rejoined f item sep);
                         SetField f (rejoined f item sep)] /\
      get_field f item' = rejoined f item sep) /\
     (rejoined f item sep = strip (get_field f item) ->
      events_of f evs = [] /\ get_field f item' = get_field f item)) /\
  (NoMatch (strip (Item.artist item)) -> events_of Artist evs = []).
Proof.
  destruct (ft_separate_spec item sep a s tr) as (Hrun & _ & Hf).
  cbv zeta. split; [exact Hrun|]. split.
  - intros f Hp. destruct (Hf f) as [Hg He]. rewrite Hp in Hg, He. simpl in Hg, He.
    split; intros Hc.
    + apply changed_true in Hc. rewrite Hc in Hg, He. now split.
    + apply changed_false in Hc. rewrite Hc in Hg, He. now split.
  - intros Hn. destruct (Hf Artist) as [_ He]. rewrite He. simpl.
    pose proof (rejoined_no_match Artist item sep Hn) as Hr.
    apply changed_false in Hr. now rewrite Hr.
Qed.

(** C6: with [convert_album_artist] false the album artist keeps its
    value whatever it is, and with it true an empty album artist stays
    empty; in both cases no event concerns the field.  The same holds
    for the sort artist under [convert_sort_artist].  The artist after
    the call depends on neither optional field nor flag, and each
    optional field after the call does not depend on the artist (nor on
    the other optional field and its flag). *)
Theorem ft_separate_optional_fields
    (x y z x' y' z' sep : string) (a s a' s' : bool) :
  let run := run_ft_separate in
  (Item.albumartist (fst (run (Item.make x y z) sep false s)) = y /\
   events_of AlbumArtist (snd (run (Item.make x y z) sep false s)) = []) /\
  (Item.albumartist (fst (run (Item.make x EmptyString z) sep true s)) = EmptyString /\
   events_of AlbumArtist (snd (run (Item.make x EmptyString z) sep true s)) = []) /\
  (Item.artist_sort (fst (run (Item.make x y z) sep a false)) = z /\
   events_of ArtistSort (snd (run (Item.make x y z) sep a false)) = []) /\
  (Item.artist_sort (fst (run (Item.make x y EmptyString) sep a true)) = EmptyString /\
   events_of ArtistSort (snd (run (Item.make x y EmptyString) sep a true)) = []) /\
  (Item.artist (fst (run (Item.make x y z) sep a s))
   = Item.artist (fst (run (Item.make x y' z') sep a' s')) /\
   events_of Artist (snd (run (Item.make x y z) sep a s))
   = events_of Artist (snd (run (Item.make x y' z') sep a' s'))) /\
  Item.albumartist (fst (run (Item.make x y z) sep a s))
  = Item.albumartist (fst (run (Item.make x' y z') sep a s')) /\
  Item.artist_sort (fst (run (Item.make x y z) sep a s))
  = Item.artist_sort (fst (run (Item.make x' y' z) sep a' s)).
Proof.
  cbv zeta.
  assert (G : forall f it b c, get_field f (fst (run_ft_separate it sep b c))
            = (if processed f it b c && changed f it sep
               then rejoined f it sep else get_field f it))
    by (intros f it b c; apply (ft_separate_spec it sep b c [])).
  assert (E : forall f it b c, events_of f (snd (run_ft_separate it sep b c))
            = (if processed f it b c && changed f it sep
               then rewrite_events f it sep else []))
    by (intros f it b c; apply (ft_separate_spec it sep b c [])).
  repeat split.
  - apply (G AlbumArtist).
  - apply (E AlbumArtist).
  - apply (G AlbumArtist).
  - apply (E AlbumArtist).
  - rewrite (G ArtistSort). reflexivity.
  - rewrite (E ArtistSort). reflexivity.
  - rewrite (G ArtistSort). reflexivity.
  - rewrite (E ArtistSort). reflexivity.
  - change (get_field Artist (fst (run_ft_separate (Item.make x y z) sep a s))
            = get_field Artist (fst (run_ft_separate (Item.make x y' z') sep a' s'))).
    rewrite !G. reflexivity.
  - rewrite !E. reflexivity.
  - change (get_field AlbumArtist (fst (run_ft_separate (Item.make x y z) sep a s))
            = get_field AlbumArtist (fst (run_ft_separate (Item.make x' y z') sep a s'))).
    rewrite !G. reflexivity.
  - change (get_field ArtistSort (fst (run_ft_separate (Item.make x y z) sep a s))
            = get_field ArtistSort (fst (run_ft_separate (Item.make x' y' z) sep a' s))).
    rewrite !G. reflexivity.
Qed.

(** C10: a field whose rejoined value equals its stripped value keeps
    its original value, leading and trailing whitespace included; and
    every value assigned to a field is the rejoined value of that field
    and differs from its stripped original. *)
Theorem ft_separate_never_persists_strip
    (item : Item.t) (sep : string) (a s : bool) :
  let item' := fst (run_ft_separate item sep a s) in
  let evs := snd (run_ft_separate item sep a s) in
  (forall f, rejoined f item sep = strip (get_field f item) ->
             get_field f item' = get_field f item) /\
  (forall f v, In (SetField f v) evs ->
               v = rejoined f item sep /\ v <> strip (get_field f item)).
Proof.
  cbv zeta. split.
  - intros f H. destruct (ft_separate_spec item sep a s []) as (_ & _ & Hf).
    destruct (Hf f) as [Hg _]. rewrite Hg.
    apply changed_false in H. rewrite H. now rewrite andb_false_r.
  - intros f v H. apply in_events_of in H.
    destruct (ft_separate_spec item sep a s []) as (_ & _ & Hf).
    destruct (Hf f) as [_ He]. rewrite He in H.
    destruct (processed f item a s); simpl in H; [|contradiction].
    destruct (changed f item sep) eqn:Hc; [|contradiction].
    apply changed_true in Hc. unfold rewrite_events in H.
    destruct H as [H | [H | []]]; [discriminate|].
    injection H as <-. now split.
Qed.

End NormalizerFacts.

Lemma ft_separate_rewrites_iff_changed_witness :
  let item := Item.make "Artist A feat. Artist B" " Solo Artist " "" in
  let evs := snd (run_ft_separate Beets.feat_match item "; " true true) in
  events_of Artist evs
  = [LogInfo Artist "Artist A feat. Artist B" "Artist A; Artist B";
     SetField Artist "Artist A; Artist B"] /\
  events_of AlbumArtist evs = [] /\
  events_of Artist
    (snd (run_ft_separate Beets.feat_match (Item.make "Solo Artist" "" "") "; " false false))
  = [].
Proof.
  cbv zeta. split; [|split].
  - refine (proj1 (proj1 (proj1 (proj2 (ft_separate_rewrites_iff_changed Beets.feat_match
              (Item.make "Artist A feat. Artist B" " Solo Artist " "") "; " true true []))
              Artist eq_refl) _)).
    vm_compute. discriminate.
  - refine (proj1 (proj2 (proj1 (proj2 (ft_separate_rewrites_iff_changed Beets.feat_match
              (Item.make "Artist A feat. Artist B" " Solo Artist " "") "; " true true []))
              AlbumArtist eq_refl) _)).
    vm_compute. reflexivity.
  - refine (proj2 (proj2 (ft_separate_rewrites_iff_changed Beets.feat_match
              (Item.make "Solo Artist" "" "") "; " false false [])) _).
    apply no_matchb_spec. vm_compute. reflexivity.
Defined.

Lemma ft_separate_never_persists_strip_witness :
  Item.albumartist
    (fst (run_ft_separate Beets.feat_match
            (Item.make "Artist A feat. Artist B" " Solo Artist " "") "; " true true))
  = " Solo Artist ".
Proof.
  refine (proj1 (ft_separate_never_persists_strip Beets.feat_match
            (Item.make "Artist A feat. Artist B" " Solo Artist " "") "; " true true)
            AlbumArtist _).
  vm_compute. reflexivity.
Defined.


(** ** The manual command and the import hook *)

Lemma for_each_run (body : Item.t -> M Item.t)
    (g : Item.t -> Item.t) (e : Item.t -> list event) :
  (forall x tr, body x tr = Some (g x, tr ++ e x)) ->
  forall xs tr, for_each xs body tr = Some (map g xs, tr ++ flat_map e xs).
Proof.
  intros Hb xs. induction xs as [|x rest IH]; intros tr; simpl.
  - unfold ret. now rewrite app_nil_r.
  - unfold bind. rewrite Hb, IH. unfold ret. now rewrite app_assoc.
Qed.

Lemma stored_app (xs ys : list event) : stored (xs ++ ys) = stored xs ++ stored ys.
Proof.
  induction xs as [|x xs IH]; simpl; [reflexivity|].
  destruct x; simpl; now rewrite IH.
Qed.

Lemma try_writes_app (xs ys : list event) :
  try_writes (xs ++ ys) = try_writes xs ++ try_writes ys.
Proof. apply filter_app. Qed.

Section CommandFacts.

Variable feat_match : string -> string -> option positive.

Local Abbreviation ft_separate := (ft_separate feat_match).
Local Abbreviation run_ft_separate := (run_ft_separate feat_match).
Local Abbreviation init := (init feat_match).
Local Abbreviation func := (func feat_match).
Local Abbreviation imported := (imported feat_match).
Local Abbreviation run_command := (run_command feat_match).

(** [ft_separate] only logs and assigns. *)
Lemma ft_separate_events (item : Item.t) (sep : string) (a s : bool) :
  stored (snd (run_ft_separate item sep a s)) = [] /\
  try_writes (snd (run_ft_separate item sep a s)) = [].
Proof.
  destruct (ft_separate_spec feat_match item sep a s []) as (_ & Hs & _).
  rewrite Hs. unfold rewrite_events.
  split; repeat match goal with
                | |- context [if ?b then _ else _] => destruct b
                end; reflexivity.
Qed.

(** After [__init__] every option has a value, whatever the command
    line overlays. *)
Lemma config_complete (user : Confuse.Source) (opts : Optparse.Values) :
  exists sep a s,
    Confuse.get Confuse.separator (set_args (config (init user)) opts) = Some sep /\
    Confuse.get Confuse.convert_album_artist (set_args (config (init user)) opts) = Some a /\
    Confuse.get Confuse.convert_sort_artist (set_args (config (init user)) opts) = Some s.
Proof.
  destruct user as [ua us uaa usa], opts as [os oa osr].
  destruct os, oa, osr, us, uaa, usa; do 3 eexists; repeat split; reflexivity.
Qed.

Lemma config_complete_init (user : Confuse.Source) :
  exists sep a s,
    Confuse.get Confuse.separator (config (init user)) = Some sep /\
    Confuse.get Confuse.convert_album_artist (config (init user)) = Some a /\
    Confuse.get Confuse.convert_sort_artist (config (init user)) = Some s.
Proof.
  destruct user as [ua us uaa usa].
  destruct us, uaa, usa; do 3 eexists; repeat split; reflexivity.
Qed.

Lemma stored_flat_map (g : Item.t -> Item.t) (e tail : Item.t -> list event)
    (its : list Item.t) :
  (forall x, stored (e x) = []) -> (forall x, stored (tail x) = []) ->
  stored (flat_map (fun x => e x ++ Store (g x) :: tail x) its) = map g its.
Proof.
  intros He Ht. induction its as [|x rest IH]; simpl; [reflexivity|].
  rewrite !stored_app, He. simpl. rewrite Ht, IH. reflexivity.
Qed.

(** C8: the command returns; with [sep], [a] and [s] the values it
    reads from the configuration, its trace is, item after item in the
    order of the query result, the events of [ft_separate] on the item,
    then [store()] of the item as [ft_separate] left it, then
    [try_write()] of it exactly when the host's write setting is on.
    Every item is stored once, in order; and for every [n] the events
    of the first [n] items stand first in the trace and are those of
    processing these items alone, whatever follows. *)
Theorem command_processes_each_item
    (user : Confuse.Source) (write : bool) (lib : Library)
    (cl : Optparse.CommandLine) (tr : list event) :
  exists sep a s,
    let cfg := set_args (config (init user)) (parse_args cl) in
    let one := fun item => run_ft_separate item sep a s in
    let events := fun item =>
      snd (one item)
      ++ Store (fst (one item))
         :: (if write then [TryWrite (fst (one item))] else []) in
    let its := items lib (Optparse.args cl) in
    Confuse.get Confuse.separator cfg = Some sep /\
    Confuse.get Confuse.convert_album_artist cfg = Some a /\
    Confuse.get Confuse.convert_sort_artist cfg = Some s /\
    run_command user write lib cl tr
    = Some (map (fun item => fst (one item)) its, tr ++ flat_map events its) /\
    stored (flat_map events its) = map (fun item => fst (one item)) its /\
    try_writes (flat_map events its)
    = (if write then map (fun item => TryWrite (fst (one item))) its else []) /\
    forall n, flat_map events its
              = flat_map events (firstn n its) ++ flat_map events (skipn n its).
Proof.
  destruct (config_complete user (parse_args cl)) as (sep & a & s & Hs & Ha & Hr).
  exists sep, a, s. cbv zeta. repeat split; try assumption.
  - unfold run_command, func, bind. rewrite Hs, Ha, Hr. simpl lift. unfold ret at 1 2 3.
    apply for_each_run. intros x t. unfold bind. rewrite ft_separate_run.
    unfold emit, ret. destruct write; rewrite <- !app_assoc; reflexivity.
  - apply (stored_flat_map (fun x => fst (run_ft_separate x sep a s))
             (fun x => snd (run_ft_separate x sep a s))).
    + intros x. apply ft_separate_events.
    + intros x. destruct write; reflexivity.
  - induction (items lib (Optparse.args cl)) as [|x rest IH]; cbn [flat_map map].
    + destruct write; reflexivity.
    + rewrite !try_writes_app, (proj2 (ft_separate_events x sep a s)), IH.
      destruct write; reflexivity.
  - intros n. rewrite <- flat_map_app, firstn_skipn. reflexivity.
Qed.

(** C9: unless the user sets [auto] to false (it defaults to true),
    [__init__] registers exactly one import stage; run on a task it
    returns, and its trace is, item after item in the order of
    [imported_items()], the events of [ft_separate] on the item followed
    by [store()] of the item as [ft_separate] left it.  Every item is
    stored once, in order, and the trace holds no [try_write()]. *)
Theorem import_stage_stores_each_item
    (user : Confuse.Source) (task : ImportTask) (tr : list event) :
  Confuse.auto user <> Some false ->
  exists hook sep a s,
    let one := fun item => run_ft_separate item sep a s in
    let events := fun item => snd (one item) ++ [Store (fst (one item))] in
    let its := imported_items task in
    import_stages (init user) = [hook] /\
    Confuse.get Confuse.separator (config (init user)) = Some sep /\
    Confuse.get Confuse.convert_album_artist (config (init user)) = Some a /\
    Confuse.get Confuse.convert_sort_artist (config (init user)) = Some s /\
    hook task tr
    = Some (map (fun item => fst (one item)) its, tr ++ flat_map events its) /\
    stored (flat_map events its) = map (fun item => fst (one item)) its /\
    try_writes (flat_map events its) = [].
Proof.
  intros Hauto.
  destruct (config_complete_init user) as (sep & a & s & Hs & Ha & Hr).
  exists (imported (config (init user))), sep, a, s. cbv zeta.
  repeat split; try assumption.
  - destruct user as [[[|]|] us uaa usa]; simpl in *;
      [reflexivity | contradiction Hauto; reflexivity | reflexivity].
  - unfold imported, bind. rewrite Hs, Ha, Hr. simpl lift. unfold ret at 1 2 3.
    apply for_each_run. intros x t. unfold bind. rewrite ft_separate_run.
    unfold emit, ret. rewrite <- !app_assoc. reflexivity.
  - apply (stored_flat_map (fun x => fst (run_ft_separate x sep a s))
             (fun x => snd (run_ft_separate x sep a s)) (fun _ => [])).
    + intros x. apply ft_separate_events.
    + reflexivity.
  - induction (imported_items task) as [|x rest IH]; cbn [flat_map]; [reflexivity|].
    rewrite !try_writes_app, (proj2 (ft_separate_events x sep a s)), IH. reflexivity.
Qed.

End CommandFacts.

Lemma import_stage_stores_each_item_witness :
  exists hook,
    import_stages (init Beets.feat_match (Confuse.source None None None None)) = [hook] /\
    hook (import_task [Item.make "X ft. Y" "" ""; Item.make "Solo Artist" "" ""]) []
    = Some ([Item.make "X; Y" "" ""; Item.make "Solo Artist" "" ""],
            [LogInfo Artist "X ft. Y" "X; Y"; SetField Artist "X; Y";
             Store (Item.make "X; Y" "" ""); Store (Item.make "Solo Artist" "" "")]).
Proof.
  destruct (import_stage_stores_each_item Beets.feat_match
              (Confuse.source None None None None)
              (import_task [Item.make "X ft. Y" "" ""; Item.make "Solo Artist" "" ""]) [])
    as (hook & sep & a & s & Hh & Hs & Ha & Hr & Hrun & _).
  - simpl. discriminate.
  - exists hook. split; [exact Hh|].
    rewrite Hrun. vm_compute in Hs, Ha, Hr.
    injection Hs as <-. injection Ha as <-. injection Hr as <-.
    vm_compute. reflexivity.
Defined.

(** C1 fails on the code: the parser gives [-s] the default "; " where
    [-a] and [-r] have the default [None], so without [-s] on the command
    line the overlay of [set_args] still carries a separator and hides the
    configured one.  For every configured separator the command without
    [-s] behaves as if none were configured; with " / " configured, "X ft.
    Y" is rewritten to "X; Y". *)
Theorem command_hides_configured_separator :
  (forall feat_match auto sep a s write lib album_flag sort_flag args tr,
     run_command feat_match (Confuse.source auto (Some sep) a s) write lib
       (Optparse.command_line None album_flag sort_flag args) tr
     = run_command feat_match (Confuse.source auto None a s) write lib
         (Optparse.command_line None album_flag sort_flag args) tr) /\
  run_command Beets.feat_match (Confuse.source None (Some " / ") None None) false
    (library (fun _ => [Item.make "X ft. Y" "" ""]))
    (Optparse.command_line None false false []) []
  = Some ([Item.make "X; Y" "" ""],
          [LogInfo Artist "X ft. Y" "X; Y"; SetField Artist "X; Y";
           Store (Item.make "X; Y" "" "")]) /\
  run_command Beets.feat_match (Confuse.source None (Some " / ") None None) false
    (library (fun _ => [Item.make "X ft. Y" "" ""]))
    (Optparse.command_line (Some " / ") false false []) []
  = Some ([Item.make "X / Y" "" ""],
          [LogInfo Artist "X ft. Y" "X / Y"; SetField Artist "X / Y";
           Store (Item.make "X / Y" "" "")]).
Proof.
  split; [|split].
  - intros. reflexivity.
  - vm_compute. reflexivity.
  - vm_compute. reflexivity.
Qed.


(** * Further properties of the plugin *)

Lemma slength_app (a b : string) :
  String.length (a ++ b)%string = String.length a + String.length b.
Proof. induction a as [|x a IH]; simpl; [reflexivity | now rewrite IH]. Qed.

Lemma lstrip_length (s : string) : String.length (lstrip s) <= String.length s.
Proof.
  induction s as [|c r IH]; simpl; [lia|].
  destruct (is_space c); simpl; lia.
Qed.

Lemma rstrip_length (s : string) : String.length (rstrip s) <= String.length s.
Proof.
  induction s as [|c r IH]; simpl; [lia|].
  destruct (rstrip r) as [|d r']; [destruct (is_space c)|]; simpl in *; lia.
Qed.

Lemma strip_length (s : string) : String.length (strip s) <= String.length s.
Proof.
  unfold strip. pose proof (rstrip_length (lstrip s)). pose proof (lstrip_length s). lia.
Qed.

Lemma for_each_ext (b1 b2 : Item.t -> M Item.t) :
  (forall x tr, b1 x tr = b2 x tr) ->
  forall xs tr, for_each xs b1 tr = for_each xs b2 tr.
Proof.
  intros H xs. induction xs as [|x rest IH]; intros tr; simpl; [reflexivity|].
  unfold bind. rewrite H. destruct (b2 x tr) as [[x' tr']|]; [|reflexivity].
  now rewrite IH.
Qed.

Section TokenizerMore.

Variable feat_match : string -> string -> option positive.

Lemma split_scan_total_length (rest pre seg : string) (skip : nat) :
  list_sum (map String.length (split_scan feat_match pre seg rest skip))
  <= String.length seg + String.length rest.
Proof.
  revert pre seg skip. induction rest as [|c r IH]; intros pre seg skip; simpl.
  - lia.
  - destruct skip as [|k].
    + destruct (feat_match pre (String c r)) as [n|]; simpl.
      * specialize (IH (pre ++ chr c)%string EmptyString (pred (Pos.to_nat n))).
        simpl in IH. lia.
      * specialize (IH (pre ++ chr c)%string (seg ++ chr c)%string 0).
        rewrite slength_app in IH. simpl in IH. lia.
    + specialize (IH (pre ++ chr c)%string seg k). lia.
Qed.

(** X1: every part that [split_on_feat] returns is stripped: stripping it
    again changes nothing, so no part starts or ends with whitespace. *)
Theorem split_on_feat_parts_stripped (s : string) :
  Forall (fun part => strip part = part) (split_on_feat feat_match s).
Proof.
  unfold split_on_feat. apply Forall_forall. intros part Hin.
  apply in_map_iff in Hin. destruct Hin as (seg & <- & _). apply strip_idem.
Qed.

(** X2: [split_on_feat] adds no text: the lengths of the parts sum to at
    most the length of the input. *)
Theorem split_on_feat_total_length (s : string) :
  list_sum (map String.length (split_on_feat feat_match s)) <= String.length s.
Proof.
  unfold split_on_feat, re_split.
  pose proof (split_scan_total_length s EmptyString EmptyString 0) as H. simpl in H.
  revert H. generalize (split_scan feat_match EmptyString EmptyString s 0). intros l.
  assert (Hl : list_sum (map String.length (map strip l))
               <= list_sum (map String.length l)).
  { induction l as [|x l IH]; simpl; [lia|]. pose proof (strip_length x). lia. }
  lia.
Qed.

Lemma re_split_first_match (a m b : string) (n : positive) :
  Quiet feat_match EmptyString a (m ++ b) ->
  feat_match a (m ++ b) = Some n ->
  Pos.to_nat n = String.length m ->
  re_split feat_match (a ++ m ++ b)
  = a :: split_scan feat_match (a ++ m) EmptyString b 0.
Proof.
  intros Ha Hm Hn. unfold re_split.
  rewrite (split_scan_quiet feat_match a _ _ _ Ha). simpl.
  destruct m as [|c m']; [simpl in Hn; lia|].
  simpl in *. rewrite Hm, Hn. simpl. f_equal.
  rewrite split_scan_skip. now rewrite sapp_chr.
Qed.

(** X12: when the first match of the pattern in [a ++ m ++ b] is the text
    [m] (no match starts inside [a]), the first part returned by
    [split_on_feat] is the stripped [a], however many matches follow in
    [b], and there are at least two parts. *)
Theorem split_on_feat_first_part (a m b : string) (n : positive) :
  Quiet feat_match EmptyString a (m ++ b) ->
  feat_match a (m ++ b) = Some n ->
  Pos.to_nat n = String.length m ->
  hd EmptyString (split_on_feat feat_match (a ++ m ++ b)) = strip a /\
  2 <= List.length (split_on_feat feat_match (a ++ m ++ b)).
Proof.
  intros Ha Hm Hn. unfold split_on_feat.
  rewrite (re_split_first_match a m b n Ha Hm Hn). simpl. split; [reflexivity|].
  rewrite length_map.
  pose proof (split_scan_length feat_match b (a ++ m)%string EmptyString 0). lia.
Qed.

End TokenizerMore.

Lemma split_on_feat_first_part_witness :
  hd EmptyString (split_on_feat Beets.feat_match "Artist A feat. B & C") = "Artist A" /\
  2 <= List.length (split_on_feat Beets.feat_match "Artist A feat. B & C").
Proof.
  apply (split_on_feat_first_part Beets.feat_match "Artist A " "feat." " B & C" 5%positive).
  - apply quietb_spec; vm_compute; reflexivity.
  - vm_compute; reflexivity.
  - vm_compute; reflexivity.
Defined.

Section NormalizerMore.

Variable feat_match : string -> string -> option positive.

Local Abbreviation ft_separate := (ft_separate feat_match).
Local Abbreviation run_ft_separate := (run_ft_separate feat_match).
Local Abbreviation rejoined := (rejoined feat_match).
Local Abbreviation changed := (changed feat_match).
Local Abbreviation rewrite_events := (rewrite_events feat_match).
Local Abbreviation NoMatch := (NoMatch feat_match).

(** X3: [ft_separate] always returns, and it only logs and assigns:
    every event it adds is a log line or a field assignment, so it
    neither stores the item nor writes its tags. *)
Theorem ft_separate_only_logs_and_assigns
    (item : Item.t) (sep : string) (a s : bool) (tr : list event) :
  exists item' evs,
    ft_separate item sep a s tr = Some (item', tr ++ evs) /\
    Forall (fun e => match e with
                     | LogInfo _ _ _ | SetField _ _ => True
                     | Store _ | TryWrite _ => False
                     end) evs /\
    stored evs = [] /\ try_writes evs = [].
Proof.
  destruct (ft_separate_spec feat_match item sep a s tr) as (Hrun & Hs & _).
  exists (fst (run_ft_separate item sep a s)), (snd (run_ft_separate item sep a s)).
  split; [exact Hrun|]. rewrite Hs. unfold rewrite_events.
  repeat match goal with
         | |- context [if ?b then _ else _] => destruct b
         end; simpl; repeat split; repeat constructor.
Qed.

(** X4: the events of [ft_separate] come field by field in the order
    artist, album artist, sort artist; a field contributes its log line
    followed by its assignment when its block is entered and its rejoined
    value differs from its stripped value, and nothing otherwise.  So one
    call adds at most six events. *)
Theorem ft_separate_trace_order (item : Item.t) (sep : string) (a s : bool) :
  let events_for := fun f =>
    if processed f item a s && changed f item sep
    then [LogInfo f (get_field f item) (rejoined f item sep);
          SetField f (rejoined f item sep)]
    else [] in
  snd (run_ft_separate item sep a s)
  = events_for Artist ++ events_for AlbumArtist ++ events_for ArtistSort /\
  List.length (snd (run_ft_separate item sep a s)) <= 6.
Proof.
  cbv zeta. destruct (ft_separate_spec feat_match item sep a s []) as (_ & Hs & _).
  rewrite Hs. unfold rewrite_events. split; [reflexivity|].
  repeat match goal with
         | |- context [if ?b then _ else _] => destruct b
         end; simpl; lia.
Qed.


Lemma run_ft_separate_clean (item : Item.t) (sep : string) (a s : bool) :
  (forall f, processed f item a s = true -> NoMatch (strip (get_field f item))) ->
  run_ft_separate item sep a s = (item, []).
Proof.
  intros H. destruct (ft_separate_spec feat_match item sep a s []) as (_ & Hs & Hf).
  assert (Q : forall f, processed f item a s && changed f item sep = false).
  { intros f. destruct (processed f item a s) eqn:Hp; [|reflexivity].
    simpl. apply changed_false. apply rejoined_no_match. now apply H. }
  assert (Hi : fst (run_ft_separate item sep a s) = item).
  { generalize (Hf Artist), (Hf AlbumArtist), (Hf ArtistSort).
    rewrite !Q. simpl. destruct (fst (run_ft_separate item sep a s)), item.
    simpl. intros [-> _] [-> _] [-> _]. reflexivity. }
  assert (He : snd (run_ft_separate item sep a s) = []).
  { rewrite Hs, !Q. reflexivity. }
  destruct (run_ft_separate item sep a s) as [i e]. simpl in Hi, He. rewrite Hi, He. reflexivity.
Qed.

(** X6: an item whose processed fields have, once stripped, no match of
    the pattern goes through [ft_separate] untouched: the same item comes
    back and no event is added. *)
Theorem ft_separate_leaves_clean_item
    (item : Item.t) (sep : string) (a s : bool) (tr : list event) :
  (forall f, processed f item a s = true -> NoMatch (strip (get_field f item))) ->
  ft_separate item sep a s tr = Some (item, tr).
Proof.
  intros H. rewrite (ft_separate_run feat_match item sep a s tr).
  rewrite (run_ft_separate_clean item sep a s H). simpl.
  now rewrite app_nil_r.
Qed.

End NormalizerMore.


Lemma ft_separate_leaves_clean_item_witness :
  ft_separate Beets.feat_match (Item.make " Solo Artist" "Various Artists " "") "; "
    true true []
  = Some (Item.make " Solo Artist" "Various Artists " "", []).
Proof.
  refine (ft_separate_leaves_clean_item Beets.feat_match
            (Item.make " Solo Artist" "Various Artists " "") "; " true true [] _).
  intros f. destruct f.
  - intros _. apply no_matchb_spec. vm_compute. reflexivity.
  - intros _. apply no_matchb_spec. vm_compute. reflexivity.
  - intros H. vm_compute in H. discriminate H.
Defined.

Section CommandMore.

Variable feat_match : string -> string -> option positive.

Local Abbreviation run_ft_separate := (run_ft_separate feat_match).
Local Abbreviation init := (init feat_match).
Local Abbreviation imported := (imported feat_match).
Local Abbreviation run_command := (run_command feat_match).

(** X7: a separator given with [-s] is the one the command reads,
    whatever the configuration says; the run does not depend on the
    configured separator at all. *)
Theorem separator_flag_overrides_configuration
    (auto : option bool) (us us' : option string) (ua ur : option bool)
    (v : string) (album_flag sort_flag write : bool) (args : list string)
    (lib : Library) (tr : list event) :
  let cl := Optparse.command_line (Some v) album_flag sort_flag args in
  Confuse.get Confuse.separator
    (set_args (config (init (Confuse.source auto us ua ur))) (parse_args cl))
  = Some v /\
  run_command (Confuse.source auto us ua ur) write lib cl tr
  = run_command (Confuse.source auto us' ua ur) write lib cl tr.
Proof. cbv zeta. split; reflexivity. Qed.

(** X8: the flags [-a] and [-r] can only switch a conversion on: the
    command converts the album artist when [-a] is given or the
    configuration enables it, and without either it does not (the default
    is off); the same for [-r] and the sort artist. *)
Theorem boolean_flags_only_switch_on
    (auto : option bool) (us : option string) (ua ur : option bool)
    (fs : option string) (album_flag sort_flag : bool) (args : list string) :
  let cfg := set_args (config (init (Confuse.source auto us ua ur)))
               (parse_args (Optparse.command_line fs album_flag sort_flag args)) in
  Confuse.get Confuse.convert_album_artist cfg
  = Some (album_flag || match ua with Some b => b | None => false end) /\
  Confuse.get Confuse.convert_sort_artist cfg
  = Some (sort_flag || match ur with Some b => b | None => false end).
Proof.
  cbv zeta. destruct fs, album_flag, sort_flag, ua as [[|]|], ur as [[|]|];
    split; reflexivity.
Qed.

(** X9: [__init__] registers the import stage unless the user has set
    [auto] to false: with [auto] absent or true there is exactly the one
    stage [imported], with [auto] false there is none. *)
Theorem import_stage_registered_unless_auto_off
    (auto : option bool) (us : option string) (ua ur : option bool) :
  let self := init (Confuse.source auto us ua ur) in
  import_stages self
  = match auto with
    | Some false => []
    | _ => [imported (config self)]
    end.
Proof. cbv zeta. destruct auto as [[|]|]; reflexivity. Qed.

(** X10: without flags and with the host's write setting off, the command
    does to the items of the query exactly what the import stage does to
    the items of a task, under the same configuration except that the
    command never sees a configured separator. *)
Theorem command_without_flags_runs_import_stage
    (auto : option bool) (us : option string) (ua ur : option bool)
    (lib : Library) (args : list string) (tr : list event) :
  run_command (Confuse.source auto us ua ur) false lib
    (Optparse.command_line None false false args) tr
  = imported (config (init (Confuse.source auto None ua ur)))
      (import_task (items lib args)) tr.
Proof.
  unfold run_command, func, imported, bind.
  destruct ua as [a|], ur as [r|]; simpl; apply for_each_ext; intros x t;
    unfold bind, emit, ret;
    match goal with
    | |- context [ft_separate ?fm ?i ?sp ?b ?c ?t0] =>
        destruct (ft_separate fm i sp b c t0) as [[i' t']|]
    end; reflexivity.
Qed.

(** X11: the import stage reads the configured separator and flags, and
    "; ", off and off for those the user left out: its trace is, item
    after item, the events of [ft_separate] with these values followed by
    [store()] of the item, whether or not the stage was registered. *)
Theorem import_stage_uses_configuration
    (auto : option bool) (us : option string) (ua ur : option bool)
    (task : ImportTask) (tr : list event) :
  let sep := match us with Some v => v | None => "; "%string end in
  let a := match ua with Some b => b | None => false end in
  let s := match ur with Some b => b | None => false end in
  let one := fun item => run_ft_separate item sep a s in
  imported (config (init (Confuse.source auto us ua ur))) task tr
  = Some (map (fun item => fst (one item)) (imported_items task),
          tr ++ flat_map (fun item => snd (one item) ++ [Store (fst (one item))])
                  (imported_items task)).
Proof.
  cbv zeta. unfold imported, bind.
  destruct us as [v|], ua as [a|], ur as [r|]; simpl;
    apply for_each_run; intros x t; unfold bind;
    rewrite ft_separate_run; unfold emit, ret; rewrite <- !app_assoc; reflexivity.
Qed.


Lemma for_each_run_forall (body : Item.t -> M Item.t)
    (g : Item.t -> Item.t) (e : Item.t -> list event) (xs : list Item.t) :
  Forall (fun x => forall tr, body x tr = Some (g x, tr ++ e x)) xs ->
  forall tr, for_each xs body tr = Some (map g xs, tr ++ flat_map e xs).
Proof.
  induction 1 as [|x rest Hx _ IH]; intros tr; simpl.
  - unfold ret. now rewrite app_nil_r.
  - unfold bind. rewrite Hx, IH. unfold ret. now rewrite app_assoc.
Qed.

(** X13: the command stores (and, with the host's write setting on,
    writes) every item of the query, also those it has nothing to change
    in: when every item is free of matches in the fields processed, the
    items come back as they were, nothing is logged or assigned, and the
    trace is one [store()] per item, each followed by [try_write()] when
    writing is on. *)
Theorem command_stores_unchanged_items
    (auto : option bool) (us : option string) (ua ur : option bool)
    (fs : option string) (album_flag sort_flag write : bool)
    (lib : Library) (args : list string) (tr : list event) :
  let sep := match fs with Some v => v | None => "; "%string end in
  let a := album_flag || match ua with Some b => b | None => false end in
  let s := sort_flag || match ur with Some b => b | None => false end in
  Forall (fun item => forall f, processed f item a s = true ->
                      NoMatch feat_match (strip (get_field f item)))
         (items lib args) ->
  run_command (Confuse.source auto us ua ur) write lib
    (Optparse.command_line fs album_flag sort_flag args) tr
  = Some (items lib args,
          tr ++ flat_map (fun item =>
                            Store item :: (if write then [TryWrite item] else []))
                  (items lib args)).
Proof.
  cbv zeta. intros Hclean.
  unfold run_command, func, bind.
  assert (Hs : Confuse.get Confuse.separator
                 (set_args (config (init (Confuse.source auto us ua ur)))
                    (parse_args (Optparse.command_line fs album_flag sort_flag args)))
               = Some (match fs with Some v => v | None => "; "%string end))
    by (destruct fs; reflexivity).
  assert (Ha : Confuse.get Confuse.convert_album_artist
                 (set_args (config (init (Confuse.source auto us ua ur)))
                    (parse_args (Optparse.command_line fs album_flag sort_flag args)))
               = Some (album_flag || match ua with Some b => b | None => false end))
    by (destruct fs, album_flag, sort_flag, ua as [[|]|]; reflexivity).
  assert (Hr : Confuse.get Confuse.convert_sort_artist
                 (set_args (config (init (Confuse.source auto us ua ur)))
                    (parse_args (Optparse.command_line fs album_flag sort_flag args)))
               = Some (sort_flag || match ur with Some b => b | None => false end))
    by (destruct fs, album_flag, sort_flag, ua as [[|]|], ur as [[|]|]; reflexivity).
  rewrite Hs, Ha, Hr. simpl lift. unfold ret at 1 2 3. simpl Optparse.args.
  rewrite <- (map_id (items lib args)) at 2.
  apply for_each_run_forall.
  eapply Forall_impl; [|exact Hclean]. intros x Hx t. unfold bind.
  rewrite ft_separate_run, (run_ft_separate_clean feat_match x _ _ _ Hx). simpl.
  unfold emit, ret. destruct write; rewrite ?app_nil_r, <- ?app_assoc; reflexivity.
Qed.

End CommandMore.

Lemma command_stores_unchanged_items_witness :
  run_command Beets.feat_match (Confuse.source None None None None) true
    (library (fun _ => [Item.make "Solo Artist" "" ""; Item.make " Other " "X ft. Y" ""]))
    (Optparse.command_line None false false []) []
  = Some ([Item.make "Solo Artist" "" ""; Item.make " Other " "X ft. Y" ""],
          [Store (Item.make "Solo Artist" "" ""); TryWrite (Item.make "Solo Artist" "" "");
           Store (Item.make " Other " "X ft. Y" "");
           TryWrite (Item.make " Other " "X ft. Y" "")]).
Proof.
  refine (command_stores_unchanged_items Beets.feat_match None None None None None
            false false true
            (library (fun _ => [Item.make "Solo Artist" "" ""; Item.make " Other " "X ft. Y" ""]))
            [] [] _).
  cbn [items].
  repeat constructor; intros f; destruct f;
    first [ intros _; apply no_matchb_spec; vm_compute; reflexivity
          | intros H; vm_compute in H; discriminate H ].
Defined.

(** ** Idempotence with the host's pattern *)

Local Open Scope string_scope.

(** *** Characters *)







(** *** Strings *)










(** *** The alternation of words *)










(** *** Stretches without a match *)

Section QuietFacts.

Variable feat_match : string -> string -> option positive.


End QuietFacts.











Section UnchangedItem.

Variable feat_match : string -> string -> option positive.



End UnchangedItem.


